(** * Maximum-entropy dice: the constraint projector and the training loop

    Shallow embedding of the notebook [max-entropy.ipynb] (class
    [MaxEntropyDice] and the [torch.optim.SGD] loop that drives it).

    Tensors of [torch.float] are modelled as MathComp matrices over an
    abstract real field [R]: the development reasons about the exact
    arithmetic that the floating-point code approximates.  A 1-D tensor of
    length [n] is a column vector ['cV_n] (the code reshapes it to [(n, 1)]
    before every matrix product).

    The two numerical-library calls used by the code, [torch.linalg.svd] and
    [torch.linalg.lstsq], are not part of this repository: they are Section
    variables, and the properties the proofs rely on are their documented
    contracts, stated as predicates on their results.  [torch.log] is a
    Section variable as well. *)

From HB Require Import structures.
From mathcomp Require Import boot order algebra.
From mathcomp Require Import ring_tactic arithmetic_tactic.
From mathcomp Require Import algC.

Set Implicit Arguments.
Unset Strict Implicit.
Unset Printing Implicit Defensive.

Import GRing.Theory Num.Theory.
Local Open Scope ring_scope.

Section MaxEntropyDice.

Variable R : realFieldType.

(** [torch.linalg.svd(A)] (with the default [full_matrices=True]): returns
    [(U, S, VT)] with [U : m x m], [S] the singular values and [VT : n x n].
    Below [S] is written [Sv], since [S] is the successor of [nat]. *)
Variable svd : forall m n, 'M[R]_(m, n) -> 'M[R]_m * seq R * 'M[R]_n.

(** [torch.linalg.lstsq(A, b).solution]. *)
Variable lstsq : forall m n, 'M[R]_(m, n) -> 'cV[R]_m -> 'cV[R]_n.

(** [torch.log], applied elementwise. *)
Variable log : R -> R.

(** ** [_compute_constraint_projector] *)

(** [probability_coeffs = torch.ones(self.num_faces)] *)
Definition probability_coeffs (num_faces : nat) : 'rV[R]_num_faces :=
  \row_(j < num_faces) 1.

(** [mean_coeffs = torch.tensor(range(1, self.num_faces+1))] *)
Definition mean_coeffs (num_faces : nat) : 'rV[R]_num_faces :=
  \row_(j < num_faces) (j.+1)%:R.

(** [A = torch.stack((probability_coeffs, mean_coeffs))]: the two rows
    stacked on top of each other. *)
Definition constraint_matrix (num_faces : nat) : 'M[R]_(2, num_faces) :=
  col_mx (probability_coeffs num_faces) (mean_coeffs num_faces).

(** [b = torch.tensor([[1], [self.mean_constraint]])] *)
Definition constraint_rhs (mean_constraint : R) : 'cV[R]_2 :=
  col_mx (1 : 'cV_1) (mean_constraint%:M : 'cV_1).

(** Column slicing [V[:, s:]]: the columns [s, s+1, ..., n-1] of [V].  As in
    Python, the slice is empty when [s >= n] ([n - s] truncates to 0). *)
Lemma slice_ord_proof n s (j : 'I_(n - s)) : (s + j < n)%N.
Proof. by have := ltn_ord j; rewrite ltn_subRL. Qed.

Definition slice_ord n s (j : 'I_(n - s)) : 'I_n := Ordinal (slice_ord_proof j).

Definition slice_cols n s (V : 'M[R]_n) : 'M[R]_(n, n - s) :=
  \matrix_(i < n, j < n - s) V i (@slice_ord n s j).

(** [V = torch.transpose(VT, 0, 1)]; [K = V[:, len(S):]];
    [P = torch.mm(K, torch.transpose(K, 0, 1))]. *)
Definition kernel_basis n (Sv : seq R) (VT : 'M[R]_n) : 'M[R]_(n, n - size Sv) :=
  slice_cols (size Sv) VT^T.

Definition kernel_projector n (Sv : seq R) (VT : 'M[R]_n) : 'M[R]_n :=
  kernel_basis Sv VT *m (kernel_basis Sv VT)^T.

(** The closure [lambda x: v + torch.mm(P, x - v)]. *)
Definition affine_projector n (P : 'M[R]_n) (v : 'cV[R]_n) (x : 'cV[R]_n) : 'cV[R]_n :=
  v + P *m (x - v).

(** The projector matrix and the particular solution that
    [_compute_constraint_projector] computes and captures in its closure. *)
Definition projector_P (num_faces : nat) : 'M[R]_num_faces :=
  let '(U, Sv, VT) := svd (constraint_matrix num_faces) in kernel_projector Sv VT.

Definition projector_v (num_faces : nat) (mean_constraint : R) : 'cV[R]_num_faces :=
  lstsq (constraint_matrix num_faces) (constraint_rhs mean_constraint).

Definition compute_constraint_projector (num_faces : nat) (mean_constraint : R)
  : 'cV[R]_num_faces -> 'cV[R]_num_faces :=
  let A := constraint_matrix num_faces in
  let b := constraint_rhs mean_constraint in
  let '(U, Sv, VT) := svd A in
  let P := kernel_projector Sv VT in
  let v := lstsq A b in
  affine_projector P v.

(** ** Contracts of the library calls *)

(** [diag(S)] padded with zeros to an [m x n] matrix. *)
Definition diag_pad m n (Sv : seq R) : 'M[R]_(m, n) :=
  \matrix_(i < m, j < n) (if i == j :> nat then nth 0 Sv i else 0).

(** Documented contract of [torch.linalg.svd(A)] for [A : m x n]:
    [A = U diag(S) VT] with [U] and [VT] orthogonal, [len(S) = min(m, n)],
    and the singular values non-negative in descending order. *)
Definition svd_spec m n (A : 'M[R]_(m, n)) (res : 'M[R]_m * seq R * 'M[R]_n) : Prop :=
  let '(U, Sv, VT) := res in
  [/\ U^T *m U = 1%:M, VT *m VT^T = 1%:M, size Sv = minn m n,
      A = U *m diag_pad m n Sv *m VT
    & all (fun s => 0 <= s) Sv && sorted (fun s t => t <= s) Sv].

(** The part of the SVD contract that the kernel construction uses:
    [V = VT^T] is orthogonal and its columns from [len(S)] on lie in the
    kernel of [A]. *)
Definition svd_kernel_spec m n (A : 'M[R]_(m, n)) (res : 'M[R]_m * seq R * 'M[R]_n) : Prop :=
  let '(U, Sv, VT) := res in
  [/\ size Sv = minn m n, VT *m VT^T = 1%:M
    & forall j : 'I_n, (size Sv <= j)%N -> A *m col j VT^T = 0].

(** The leading [len(S)] columns of [V] lie in the row space of [A]
    (a consequence of the SVD contract when the singular values are
    non-zero). *)
Definition svd_rowspace_spec m n (A : 'M[R]_(m, n)) (res : 'M[R]_m * seq R * 'M[R]_n) : Prop :=
  let '(U, Sv, VT) := res in
  forall j : 'I_n, (j < size Sv)%N -> exists y : 'cV[R]_m, col j VT^T = A^T *m y.

(** Contract of [torch.linalg.lstsq(A, b).solution]: a least-squares
    solution, i.e. one satisfying the normal equations [A^T (A x - b) = 0]. *)
Definition least_squares m n (A : 'M[R]_(m, n)) (b : 'cV[R]_m) (x : 'cV[R]_n) : Prop :=
  A^T *m (A *m x - b) = 0.

(** The default CPU driver ([gelsy]) returns the minimum-norm least-squares
    solution, which lies in the row space of [A]. *)
Definition min_norm_least_squares m n (A : 'M[R]_(m, n)) (b : 'cV[R]_m) (x : 'cV[R]_n) : Prop :=
  least_squares A b x /\ exists y : 'cV[R]_m, x = A^T *m y.

(** ** [forward], [loss.backward()] and [optimizer.step()] *)

(** [entropy = -torch.sum(self.p * torch.log(self.p))] *)
Definition entropy n (p : 'cV[R]_n) : R :=
  - \sum_(i < n) p i 0 * log (p i 0).

(** Reverse-mode differentiation of [loss = -model()] with respect to [p],
    following the graph [t1 = log p], [t2 = p * t1], [s = sum t2],
    [entropy = -s], [loss = -entropy] backwards with torch's derivative
    formulas: [neg] negates the incoming gradient, [sum] broadcasts it,
    [mul] sends [grad * other] to each factor, [log] sends [grad / self].
    The two contributions to [p] are accumulated in [p.grad].

    [log] is a function on the whole field, while [torch.log] is finite only
    on positive entries: at a zero or negative entry the code's gradient is
    NaN, and the projection [torch.mm(P, x - v)] spreads it to every entry
    of [p].  The model agrees with the code as long as every [p] that reaches
    [log] has positive entries ([log_inputs_positive] below); statements
    about later iterations assume it. *)
Definition loss_backward n (p : 'cV[R]_n) : 'cV[R]_n :=
  let t1 := \col_(i < n) log (p i 0) in
  let g_loss : R := 1 in
  let g_entropy := - g_loss in
  let g_sum := - g_entropy in
  let g_t2 := \col_(i < n) g_sum in
  let g_p_mul := \col_(i < n) (g_t2 i 0 * t1 i 0) in
  let g_t1 := \col_(i < n) (g_t2 i 0 * p i 0) in
  let g_p_log := \col_(i < n) (g_t1 i 0 / p i 0) in
  g_p_mul + g_p_log.

(** [optimizer.step()] of [torch.optim.SGD(params, lr)] with the defaults
    (no momentum, dampening, weight decay or nesterov, [maximize=False]):
    [p.add_(p.grad, alpha=-lr)]. *)
Definition sgd_step n (lr : R) (p grad : 'cV[R]_n) : 'cV[R]_n :=
  p - lr *: grad.

(** ** The module's state *)

(** The attributes of a [MaxEntropyDice] instance with [num_faces] faces.
    [num_faces] is the index of the type: every operation below maps a
    [dice_state num_faces] to a [dice_state num_faces], so it can neither
    change [num_faces] nor the length of [p].  The closure stored in
    [self.constraint_projector] is represented by the two tensors it
    captures, [P] and [v]. *)
Record dice_state (num_faces : nat) := DiceState {
  mean_constraint : R;
  proj_P : 'M[R]_num_faces;
  proj_v : 'cV[R]_num_faces;
  p : 'cV[R]_num_faces
}.

Definition constraint_projector n (st : dice_state n) : 'cV[R]_n -> 'cV[R]_n :=
  affine_projector (proj_P st) (proj_v st).

(** [MaxEntropyDice.__init__(num_faces, mean_constraint)]:
    [initial_p = torch.ones(num_faces)]. *)
Definition init (num_faces : nat) (mean : R) : dice_state num_faces :=
  {| mean_constraint := mean;
     proj_P := projector_P num_faces; proj_v := projector_v num_faces mean;
     p := const_mx 1 |}.




(** [model()]: [forward] reads the state and returns the entropy. *)
Definition forward n (st : dice_state n) : R * dice_state n :=
  (entropy (p st), st).

(** [enforce_constraint]:
    [self.p.copy_(self.constraint_projector(self.p.reshape(len(self.p), 1)).flatten())]. *)
Definition enforce_constraint n (st : dice_state n) : dice_state n :=
  {| mean_constraint := mean_constraint st;
     proj_P := proj_P st; proj_v := proj_v st;
     p := constraint_projector st (p st) |}.

(** [optimizer.zero_grad(); loss = -model(); loss.backward(); optimizer.step()] *)
Definition optimizer_step n (lr : R) (st : dice_state n) : dice_state n :=
  {| mean_constraint := mean_constraint st;
     proj_P := proj_P st; proj_v := proj_v st;
     p := sgd_step lr (p st) (loss_backward (p st)) |}.

(** One iteration of the loop body, then [with torch.no_grad():
    model.enforce_constraint()]. *)
Definition train_iteration n (lr : R) (st : dice_state n) : dice_state n :=
  enforce_constraint (optimizer_step lr st).

(** [for i in range(iters): ...] *)
Definition train n (lr : R) (iters : nat) (st : dice_state n) : dice_state n :=
  iter iters (train_iteration lr) st.

(** The notebook's run: [MaxEntropyDice(num_faces, mean_constraint)],
    [torch.optim.SGD(model.parameters(), lr)] and [iters] iterations. *)
Definition run (num_faces : nat) (mean lr : R) (iters : nat) : dice_state num_faces :=
  train lr iters (init num_faces mean).

(** Every [p] that the first [iters + 1] iterations pass to [torch.log]
    (the initial [p] and the results of the first [iters] iterations) has
    positive entries: then no NaN arises and the model computes what the
    code computes. *)
Definition log_inputs_positive (num_faces : nat) (mean lr : R) (iters : nat) : Prop :=
  forall k, (k <= iters)%N -> forall i, 0 < p (run num_faces mean lr k) i 0.

End MaxEntropyDice.

(** The particular solution printed by the notebook for six faces and mean
    [4.5]. *)
Definition printed_v (R : realFieldType) : 'cV[R]_6 :=
  \col_(j < 6) ((nth 0%N [:: 238; 810; 1381; 1952; 2524; 3095]%N j)%:R / 10 ^+ 4).


Arguments compute_constraint_projector {R} svd lstsq num_faces mean_constraint _.

(** ** A concrete instance of the library contracts

    For two faces the constraint matrix [[1, 1], [1, 2]] is invertible, and
    over the rationals the identity is an orthogonal [VT] whose columns all
    lie in the row space; [lstsq] is then the inverse [[2, -1], [-1, 1]]
    applied to [b]. *)

Definition svd_two (m n : nat) (M : 'M[rat]_(m, n)) : 'M[rat]_m * seq rat * 'M[rat]_n :=
  (1%:M, nseq (minn m n) 1, 1%:M).

(** A stand-in for [torch.log] over the rationals, which have no
    logarithm; it only instantiates the theorems below. *)
Definition log_zero (x : rat) : rat := 0.

(** The same decomposition with the signs of [U] and [VT] flipped. *)
Definition svd_two_neg (m n : nat) (M : 'M[rat]_(m, n)) : 'M[rat]_m * seq rat * 'M[rat]_n :=
  ((-1)%:M, nseq (minn m n) 1, (-1)%:M).

Definition inverse_two (j i : nat) : rat :=
  match j, i with
  | 0%N, 0%N => 2
  | 0%N, 1%N | 1%N, 0%N => -1
  | 1%N, 1%N => 1
  | _, _ => 0
  end.

Definition lstsq_two (m n : nat) (M : 'M[rat]_(m, n)) (c : 'cV[rat]_m) : 'cV[rat]_n :=
  \col_(j < n) \sum_(i < m) inverse_two j i * c i 0.

(** For six faces the Gram matrix [A A^T = [[6, 21], [21, 91]]] has the
    inverse [[13/15, -1/5], [-1/5, 2/35]]; [A^T (A A^T)^-1 b] is the
    minimum-norm solution that [gelsy] returns for a full-row-rank [A]. *)
Definition gram_inverse_six (i k : nat) : rat :=
  match i, k with
  | 0%N, 0%N => 13 / 15
  | 0%N, 1%N | 1%N, 0%N => - (1 / 5)
  | 1%N, 1%N => 2 / 35
  | _, _ => 0
  end.

Definition lstsq_six (m n : nat) (M : 'M[rat]_(m, n)) (c : 'cV[rat]_m) : 'cV[rat]_n :=
  M^T *m \col_(i < m) \sum_(k < m) gram_inverse_six i k * c k 0.

(** ** A three-face instance over the real algebraic numbers

    For three faces the kernel of [A = [[1, 1, 1], [1, 2, 3]]] is the line
    spanned by [(1, -2, 1)], whose unit vector needs [sqrt 6]; [algR] (the
    real algebraic numbers) has square roots.  The rows of [VT] are the
    orthonormal vectors [(1, 1, 1) / sqrt 3], [(-1, 0, 1) / sqrt 2] (a basis
    of the row space) and [(1, -2, 1) / sqrt 6] (of the kernel): row [i] is
    [svd_three_u i] times the integer row [svd_three_w i]. *)

Definition svd_three_u (i : nat) : algR :=
  match i with
  | 0%N => (Num.sqrt 3)^-1
  | 1%N => (Num.sqrt 2)^-1
  | _ => (Num.sqrt 6)^-1
  end.

Definition svd_three_w (i j : nat) : algR :=
  match i, j with
  | 0%N, _ => 1
  | 1%N, 0%N => -1
  | 1%N, 1%N => 0
  | 1%N, _ => 1
  | _, 1%N => -2
  | _, _ => 1
  end.

Definition svd_three_VT (n : nat) : 'M[algR]_n :=
  \matrix_(i < n, j < n) (svd_three_u i * svd_three_w i j).

Definition svd_three (m n : nat) (M : 'M[algR]_(m, n)) : 'M[algR]_m * seq algR * 'M[algR]_n :=
  (1%:M, nseq (minn m n) 1, svd_three_VT n).

(** The Gram matrix [A A^T = [[3, 6], [6, 14]]] has the inverse
    [[7/3, -1], [-1, 1/2]]; [A^T (A A^T)^-1 b] is the minimum-norm
    solution. *)
Definition gram_inverse_three (i k : nat) : algR :=
  match i, k with
  | 0%N, 0%N => 7 / 3
  | 0%N, 1%N | 1%N, 0%N => -1
  | 1%N, 1%N => 1 / 2
  | _, _ => 0
  end.

Definition lstsq_three (m n : nat) (M : 'M[algR]_(m, n)) (c : 'cV[algR]_m) : 'cV[algR]_n :=
  M^T *m \col_(i < m) \sum_(k < m) gram_inverse_three i k * c k 0.

(** A stand-in for [torch.log] over [algR]: increasing, [0] at [1], and the
    lower bound [1 - 1/x] of the logarithm. *)
Definition log_lower (x : algR) : algR := 1 - x^-1.

(** * Properties of the constraint projector *)

Section ProjectorTheory.

Variable R : realFieldType.

Local Abbreviation A := (@constraint_matrix R).
Local Abbreviation b := (@constraint_rhs R).

Lemma constraint_matrixE n (i : 'I_2) (j : 'I_n) :
  A n i j = if i == 0%N :> nat then 1 else (j.+1)%:R.
Proof.
rewrite /constraint_matrix; case: i => [[|[|i]] Hi] //=.
- have -> : Ordinal Hi = lshift 1 (0 : 'I_1) by apply: val_inj.
  by transitivity (probability_coeffs R n 0 j); [exact: col_mxEu | rewrite mxE].
- have -> : Ordinal Hi = rshift 1 (0 : 'I_1) by apply: val_inj.
  by transitivity (mean_coeffs R n 0 j); [exact: col_mxEd | rewrite mxE].
Qed.

Lemma constraint_rhsE (mean : R) (i : 'I_2) :
  b mean i 0 = if i == 0%N :> nat then 1 else mean.
Proof.
rewrite /constraint_rhs; case: i => [[|[|i]] Hi] //=.
- have -> : Ordinal Hi = lshift 1 (0 : 'I_1) by apply: val_inj.
  by transitivity ((1 : 'cV[R]_1) 0 0); [exact: col_mxEu | rewrite mxE].
- have -> : Ordinal Hi = rshift 1 (0 : 'I_1) by apply: val_inj.
  by transitivity ((mean%:M : 'cV[R]_1) 0 0); [exact: col_mxEd | rewrite mxE].
Qed.

Lemma constraint_matrix_mul n (x : 'cV[R]_n) (i : 'I_2) :
  (A n *m x) i 0 = \sum_(j < n) (if i == 0%N :> nat then 1 else (j.+1)%:R) * x j 0.
Proof. by rewrite [LHS]mxE; apply: eq_bigr => j _; rewrite constraint_matrixE. Qed.

Lemma constraint_matrix_tr_mul n (y : 'cV[R]_2) (j : 'I_n) :
  ((A n)^T *m y) j 0 = y 0 0 + (j.+1)%:R * y 1 0.
Proof.
rewrite [LHS]mxE 2!big_ord_recl big_ord0 addr0 ![(A n)^T _ _]mxE.
rewrite !constraint_matrixE mul1r /=.
by congr (_ + _ * y _ _); apply: val_inj.
Qed.

Lemma slice_ord_inj n s : injective (@slice_ord n s).
Proof.
move=> j j' /(congr1 val) /= /eqP; rewrite eqn_add2l => /eqP H.
exact: val_inj.
Qed.

Lemma kernel_basis_orthonormal n (Sv : seq R) (VT : 'M[R]_n) :
  VT *m VT^T = 1%:M ->
  (kernel_basis Sv VT)^T *m kernel_basis Sv VT = 1%:M.
Proof.
move=> HV; apply/matrixP => j j'.
have := congr1 (fun M : 'M_n => M (slice_ord j) (slice_ord j')) HV.
rewrite /= !mxE (inj_eq (@slice_ord_inj n (size Sv))) => <-.
by apply: eq_bigr => i _; rewrite !mxE.
Qed.

Lemma kernel_basis_in_kernel m n (M : 'M[R]_(m, n)) (Sv : seq R) (VT : 'M[R]_n) :
  (forall j : 'I_n, (size Sv <= j)%N -> M *m col j VT^T = 0) ->
  M *m kernel_basis Sv VT = 0.
Proof.
move=> HK; apply/matrixP => r j.
have Hc : col j (kernel_basis Sv VT) = col (slice_ord j) VT^T.
  by apply/matrixP => i k; rewrite !mxE.
transitivity (col j (M *m kernel_basis Sv VT) r 0); first by rewrite [RHS]mxE.
by rewrite colE -mulmxA -colE Hc HK ?leq_addr // !mxE.
Qed.

Lemma kernel_projector_sym n (Sv : seq R) (VT : 'M[R]_n) :
  (kernel_projector Sv VT)^T = kernel_projector Sv VT.
Proof. by rewrite /kernel_projector trmx_mul trmxK. Qed.

Lemma kernel_projector_idem n (Sv : seq R) (VT : 'M[R]_n) :
  VT *m VT^T = 1%:M ->
  kernel_projector Sv VT *m kernel_projector Sv VT = kernel_projector Sv VT.
Proof.
move=> HV; rewrite /kernel_projector -mulmxA [X in _ *m X]mulmxA.
by rewrite kernel_basis_orthonormal // mul1mx.
Qed.

Lemma kernel_projector_in_kernel m n (M : 'M[R]_(m, n)) (Sv : seq R) (VT : 'M[R]_n) :
  (forall j : 'I_n, (size Sv <= j)%N -> M *m col j VT^T = 0) ->
  M *m kernel_projector Sv VT = 0.
Proof.
by move=> HK; rewrite /kernel_projector mulmxA kernel_basis_in_kernel // mul0mx.
Qed.

Lemma affine_projectorE n (P : 'M[R]_n) (v x : 'cV[R]_n) :
  affine_projector P v x = v + P *m (x - v).
Proof. by []. Qed.

Lemma affine_projector_idem n (P : 'M[R]_n) (v x : 'cV[R]_n) :
  P *m P = P ->
  affine_projector P v (affine_projector P v x) = affine_projector P v x.
Proof.
by move=> HP; rewrite /affine_projector [v + P *m (x - v)]addrC addrK mulmxA HP addrC.
Qed.

Lemma affine_projector_constraint m n (M : 'M[R]_(m, n)) (P : 'M[R]_n) (v x : 'cV[R]_n) :
  M *m P = 0 -> M *m affine_projector P v x = M *m v.
Proof. by move=> HP; rewrite /affine_projector mulmxDr mulmxA HP mul0mx addr0. Qed.

(** If [M^T M d = 0] then [M d = 0]: the entries of [M d] have a zero sum of
    squares. *)
Lemma normal_kernel m n (M : 'M[R]_(m, n)) (d : 'cV[R]_n) :
  M^T *m (M *m d) = 0 -> M *m d = 0.
Proof.
move=> H; set w := M *m d.
have Hw : (w^T *m w) 0 0 = 0.
  by rewrite /w trmx_mul -mulmxA H mulmx0 mxE.
have Hsq : forall i, w i 0 ^+ 2 = 0.
  move: Hw; rewrite mxE => Hs i.
  apply: (psumr_eq0P (P := xpredT) (F := fun i => w i 0 ^+ 2)) => //.
    by move=> k _; rewrite sqr_ge0.
  by rewrite -[RHS]Hs; apply: eq_bigr => k _; rewrite !mxE expr2.
apply/matrixP => i j; rewrite (ord1 j) [RHS]mxE.
by apply/eqP; rewrite -sqrf_eq0 Hsq.
Qed.

(** Two least-squares solutions differ by a vector of the kernel. *)
Lemma least_squares_diff m n (M : 'M[R]_(m, n)) (c : 'cV[R]_m) (v1 v2 : 'cV[R]_n) :
  least_squares M c v1 -> least_squares M c v2 -> M *m (v1 - v2) = 0.
Proof.
rewrite /least_squares => H1 H2; apply: normal_kernel.
have -> : M *m (v1 - v2) = (M *m v1 - c) - (M *m v2 - c).
  by rewrite mulmxBr opprB addrA subrK.
by rewrite mulmxBr H1 H2 subr0.
Qed.

(** A least-squares solution of a consistent system solves it. *)
Lemma least_squares_solves m n (M : 'M[R]_(m, n)) (c : 'cV[R]_m) (v x0 : 'cV[R]_n) :
  least_squares M c v -> M *m x0 = c -> M *m v = c.
Proof.
move=> Hv Hx0.
have Hx0' : least_squares M c x0 by rewrite /least_squares Hx0 subrr mulmx0.
have := least_squares_diff Hv Hx0'.
by rewrite mulmxBr Hx0 => /eqP; rewrite subr_eq0 => /eqP.
Qed.

(** For [num_faces >= 2] the system [A x = b] has a solution for every
    mean. *)
Lemma constraint_system_consistent n (mean : R) :
  (2 <= n)%N -> exists x0 : 'cV[R]_n, A n *m x0 = b mean.
Proof.
case: n => [|[|n]] // _.
exists (\col_(j < n.+2)
          (if j == 0%N :> nat then 2 - mean else if j == 1%N :> nat then mean - 1 else 0)).
apply/matrixP => i k; rewrite (ord1 k) mxE 2!big_ord_recl.
rewrite [X in _ + (_ + X)]big1; first by move=> j _; rewrite mxE /= mulr0.
rewrite addr0 !(constraint_matrixE i) constraint_rhsE !mxE /=.
by case: i => [[|[|i]] Hi] //=; rewrite /bump /= ?mul1r; lra.
Qed.

(** With the leading columns of [V] in the row space of [M], the projector
    [K K^T] fixes every matrix whose columns lie in the kernel of [M]. *)
Lemma kernel_projector_fixes m n (M : 'M[R]_(m, n)) (U : 'M[R]_m) (Sv : seq R)
    (VT : 'M[R]_n) k (X : 'M[R]_(n, k)) :
  svd_kernel_spec M (U, Sv, VT) -> svd_rowspace_spec M (U, Sv, VT) ->
  M *m X = 0 -> kernel_projector Sv VT *m X = X.
Proof.
move=> [Hsz HV HK] Hrow HX.
set P := kernel_projector Sv VT.
have HVt : VT^T *m VT = 1%:M by apply: mulmx1C.
suff H : VT *m (X - P *m X) = 0.
  have : X - P *m X = 0 by rewrite -[X - _]mul1mx -HVt -mulmxA H mulmx0.
  by move/eqP; rewrite subr_eq0 => /eqP.
apply/matrixP => j c; rewrite [RHS]mxE.
case: (ltnP j (size Sv)) => Hj.
- have [y Hy] := Hrow j Hj.
  transitivity (((col j VT^T)^T *m (X - P *m X)) 0 c).
    by rewrite !mxE; apply: eq_bigr => i _; rewrite !mxE.
  rewrite Hy trmx_mul trmxK -mulmxA mulmxBr HX mulmxA.
  by rewrite (kernel_projector_in_kernel HK) mul0mx subrr mulmx0 mxE.
- have Hs : (size Sv < n)%N := leq_ltn_trans Hj (ltn_ord j).
  pose j' : 'I_(n - size Sv) := Ordinal (ltn_sub2r Hs (ltn_ord j)).
  have Hjj : slice_ord j' = j by apply: val_inj; rewrite /= subnKC.
  transitivity (((kernel_basis Sv VT)^T *m (X - P *m X)) j' c).
    by rewrite -{1}Hjj !mxE; apply: eq_bigr => i _; rewrite !mxE.
  rewrite mulmxBr /P /kernel_projector !mulmxA kernel_basis_orthonormal //.
  by rewrite mul1mx subrr mxE.
Qed.

(** Two SVDs of the same matrix give the same projector [K K^T]. *)
Lemma kernel_projector_unique m n (M : 'M[R]_(m, n)) (U1 U2 : 'M[R]_m)
    (Sv1 Sv2 : seq R) (VT1 VT2 : 'M[R]_n) :
  svd_kernel_spec M (U1, Sv1, VT1) -> svd_rowspace_spec M (U1, Sv1, VT1) ->
  svd_kernel_spec M (U2, Sv2, VT2) -> svd_rowspace_spec M (U2, Sv2, VT2) ->
  kernel_projector Sv1 VT1 = kernel_projector Sv2 VT2.
Proof.
move=> H1 R1 H2 R2.
have H12 : kernel_projector Sv1 VT1 *m kernel_projector Sv2 VT2 = kernel_projector Sv2 VT2.
  apply: (kernel_projector_fixes H1 R1); case: H2 => _ _ HK.
  exact: kernel_projector_in_kernel.
have H21 : kernel_projector Sv2 VT2 *m kernel_projector Sv1 VT1 = kernel_projector Sv1 VT1.
  apply: (kernel_projector_fixes H2 R2); case: H1 => _ _ HK.
  exact: kernel_projector_in_kernel.
rewrite -[LHS]kernel_projector_sym -H21 trmx_mul !kernel_projector_sym.
exact: H12.
Qed.

(** Two base points whose difference is fixed by [P] give the same affine
    projector. *)
Lemma affine_projector_unique n (P : 'M[R]_n) (v1 v2 x : 'cV[R]_n) :
  P *m (v1 - v2) = v1 - v2 -> affine_projector P v1 x = affine_projector P v2 x.
Proof.
move=> H; apply/eqP; rewrite -subr_eq0; apply/eqP.
transitivity ((v1 - v2) - P *m (v1 - v2)); last by rewrite H subrr.
rewrite /affine_projector !mulmxBr.
set a := P *m x; set c1 := P *m v1; set c2 := P *m v2.
by apply/matrixP => i j; rewrite !mxE; ring.
Qed.

(** For [num_faces >= 2] the constraint matrix has a right inverse. *)
Lemma constraint_matrix_right_inverse n :
  (2 <= n)%N -> exists B : 'M[R]_(n, 2), A n *m B = 1%:M.
Proof.
case: n => [|[|n]] // _.
exists (\matrix_(j < n.+2, i < 2)
          (if j == 0%N :> nat then (if i == 0%N :> nat then 2 else -1)
           else if j == 1%N :> nat then (if i == 0%N :> nat then -1 else 1) else 0)).
apply/matrixP => i k; rewrite [LHS]mxE [RHS]mxE 2!big_ord_recl.
rewrite [X in _ + (_ + X)]big1; first by move=> j _; rewrite mxE /= mulr0.
rewrite addr0 !(constraint_matrixE i) !mxE /=.
by case: i => [[|[|i]] Hi] //=; case: k => [[|[|k]] Hk] //=; rewrite /bump /= ?mul1r; lra.
Qed.

(** The documented SVD contract implies the part of it the kernel
    construction relies on. *)
Lemma svd_spec_kernel m n (M : 'M[R]_(m, n)) res :
  svd_spec M res -> svd_kernel_spec M res.
Proof.
case: res => [[U Sv] VT] [HU HV Hsz HM _]; split=> // j Hj.
rewrite HM colE -!mulmxA [VT *m _]mulmxA HV mul1mx -colE.
have -> : col j (diag_pad m n Sv) = 0.
  apply/matrixP => i k; rewrite !mxE.
  by case: eqP => // Hij; rewrite nth_default // Hij.
by rewrite mulmx0.
Qed.

(** With non-zero singular values, the leading columns of [V] lie in the
    row space: [V e_j = A^T (U e_j / s_j)]. *)
Lemma svd_spec_rowspace m n (M : 'M[R]_(m, n)) res :
  svd_spec M res -> all (fun s => s != 0) res.1.2 -> svd_rowspace_spec M res.
Proof.
case: res => [[U Sv] VT] [HU HV Hsz HM _] /= Hnz j Hj.
have Hjm : (j < m)%N by apply: leq_trans (geq_minl m n); rewrite -Hsz.
pose jm := Ordinal Hjm; set s := nth 0 Sv j.
have Hs : s != 0 by apply: (allP Hnz); rewrite mem_nth.
have HD : (diag_pad m n Sv)^T *m delta_mx jm ord0 = s *: (delta_mx j ord0 : 'cV_n).
  rewrite -colE; apply/matrixP => k l; rewrite (ord1 l) !mxE /= andbT.
  case: (eqVneq k j) => [->|Hkj]; first by rewrite eqxx mulr1.
  have -> : (jm == k :> nat) = false.
    by apply/negbTE; apply: contra Hkj => /eqP Hk; apply/eqP/val_inj.
  by rewrite mulr0.
exists (s^-1 *: (U *m (delta_mx jm ord0 : 'cV_m))).
rewrite HM !trmx_mul -!mulmxA !scalemxAr [U^T *m (U *m _)]mulmxA HU mul1mx.
by rewrite -scalemxAr HD scalerA mulVf // scale1r -colE.
Qed.

(** The constraint matrix has rank [min(2, num_faces)]. *)
Lemma constraint_matrix_rank n : \rank (A n) = minn 2 n.
Proof.
case: n => [|[|n]].
- by apply/eqP; rewrite -leqn0 (leq_trans (rank_leq_col _)).
- apply/eqP; rewrite eqn_leq rank_leq_col /= lt0n mxrank_eq0.
  apply/negP => /eqP /matrixP /(_ 0 0); rewrite constraint_matrixE mxE /=.
  by move/eqP; rewrite oner_eq0.
- have [B HB] := @constraint_matrix_right_inverse n.+2 isT.
  have /eqP -> : row_free (A n.+2) by apply/row_freeP; exists B.
  by rewrite (minn_idPl _).
Qed.

(** When [len(S)] equals the rank of [M], the columns of [K] span the
    kernel of [M] (a dimension count, with no assumption on the leading
    columns of [V]), so [K K^T] fixes every matrix whose columns lie in the
    kernel. *)
Lemma kernel_projector_fixes_rank m n (M : 'M[R]_(m, n)) (U : 'M[R]_m) (Sv : seq R)
    (VT : 'M[R]_n) k (X : 'M[R]_(n, k)) :
  svd_kernel_spec M (U, Sv, VT) -> \rank M = size Sv ->
  M *m X = 0 -> kernel_projector Sv VT *m X = X.
Proof.
move=> [_ HV HK] HrM HX.
set K := kernel_basis Sv VT.
have HKK : K^T *m K = 1%:M by exact: kernel_basis_orthonormal.
have HMK : M *m K = 0 by exact: kernel_basis_in_kernel.
have Hfree : row_free K^T by apply/row_freeP; exists K.
have Hsub : (K^T <= kermx M^T)%MS by apply/sub_kermxP; rewrite -trmx_mul HMK trmx0.
have Heq : (K^T == kermx M^T)%MS.
  by rewrite -(mxrank_leqif_eq Hsub).2 (eqP Hfree) mxrank_ker mxrank_tr HrM.
have HXk : (X^T <= kermx M^T)%MS by apply/sub_kermxP; rewrite -trmx_mul HX trmx0.
have /submxP [C HC] : (X^T <= K^T)%MS.
  by apply: submx_trans HXk _; case/andP: Heq.
have -> : X = K *m C^T by rewrite -[X]trmxK HC trmx_mul trmxK.
by rewrite /kernel_projector -!mulmxA [K^T *m _]mulmxA HKK mul1mx.
Qed.

(** [K K^T] sends the row space of [M] to zero. *)
Lemma kernel_projector_rowspace m n (M : 'M[R]_(m, n)) (Sv : seq R) (VT : 'M[R]_n)
    (y : 'cV[R]_m) :
  (forall j : 'I_n, (size Sv <= j)%N -> M *m col j VT^T = 0) ->
  kernel_projector Sv VT *m (M^T *m y) = 0.
Proof.
move=> HK; rewrite mulmxA -[kernel_projector Sv VT]kernel_projector_sym -trmx_mul.
by rewrite kernel_projector_in_kernel // trmx0 mul0mx.
Qed.

End ProjectorTheory.

(** * The claims about [MaxEntropyDice] *)

(** * The concrete instances satisfy the library contracts *)

Section Instances.

Local Abbreviation A := (@constraint_matrix rat).
Local Abbreviation b := (@constraint_rhs rat).

Lemma svd_two_kernel : svd_kernel_spec (A 2) (svd_two (A 2)).
Proof.
split; first by rewrite size_nseq.
  by rewrite trmx1 mulmx1.
by move=> [j Hj]; rewrite size_nseq /=; case: j Hj => [|[|j]].
Qed.

Lemma svd_two_rowspace : svd_rowspace_spec (A 2) (svd_two (A 2)).
Proof.
move=> j _; exists (\col_(i < 2) inverse_two j i).
apply/matrixP => i k; rewrite (ord1 k) constraint_matrix_tr_mul !mxE /=.
case: j => [[|[|j]] Hj] //=; case: i => [[|[|i]] Hi] //=; rewrite /bump /=; lra.
Qed.

Lemma svd_two_neg_kernel : svd_kernel_spec (A 2) (svd_two_neg (A 2)).
Proof.
split; first by rewrite size_nseq.
  by rewrite tr_scalar_mx -scalar_mxM mulrNN mulr1.
by move=> [j Hj]; rewrite size_nseq /=; case: j Hj => [|[|j]].
Qed.

Lemma svd_two_neg_rowspace : svd_rowspace_spec (A 2) (svd_two_neg (A 2)).
Proof.
move=> j _; exists (\col_(i < 2) - inverse_two j i).
apply/matrixP => i k; rewrite (ord1 k) constraint_matrix_tr_mul !mxE /=.
case: j => [[|[|j]] Hj] //=; case: i => [[|[|i]] Hi] //=; rewrite /bump /=; lra.
Qed.

Lemma lstsq_two_solves (mean : rat) : A 2 *m lstsq_two (A 2) (b mean) = b mean.
Proof.
apply/matrixP => i k; rewrite (ord1 k) constraint_matrix_mul constraint_rhsE.
rewrite !big_ord_recl !big_ord0 !mxE !big_ord_recl !big_ord0 !constraint_rhsE /=.
by case: i => [[|[|i]] Hi] //=; rewrite /bump /=; lra.
Qed.

Lemma lstsq_two_least_squares (mean : rat) :
  least_squares (A 2) (b mean) (lstsq_two (A 2) (b mean)).
Proof. by rewrite /least_squares lstsq_two_solves subrr mulmx0. Qed.

Lemma lstsq_six_solves : A 6 *m lstsq_six (A 6) (b (9 / 2)) = b (9 / 2).
Proof.
apply/matrixP => i k; rewrite (ord1 k) constraint_matrix_mul constraint_rhsE.
rewrite !big_ord_recl !big_ord0 /lstsq_six !constraint_matrix_tr_mul !mxE.
rewrite !big_ord_recl !big_ord0 !constraint_rhsE /= /bump /= !add1n.
by case: i => [[|[|i]] Hi] //=; lra.
Qed.

Lemma lstsq_six_min_norm :
  min_norm_least_squares (A 6) (b (9 / 2)) (lstsq_six (A 6) (b (9 / 2))).
Proof.
split; first by rewrite /least_squares lstsq_six_solves subrr mulmx0.
by eexists.
Qed.



Lemma projector_P_two_zero : projector_P svd_two 2 = 0 :> 'M[rat]_2.
Proof. by apply/matrixP => i j; rewrite !mxE big1 // => -[k Hk]. Qed.

Lemma lstsq_two_entries (mean : rat) (j : 'I_2) :
  lstsq_two (A 2) (b mean) j 0 = if j == 0%N :> nat then 2 - mean else mean - 1.
Proof.
rewrite !mxE !big_ord_recl !big_ord0 !constraint_rhsE /=.
by case: j => [[|[|j]] Hj] //=; lra.
Qed.

End Instances.

Section InstancesThree.

Local Abbreviation A := (@constraint_matrix algR).
Local Abbreviation b := (@constraint_rhs algR).

Lemma svd_three_u_sq (i : nat) :
  svd_three_u i * svd_three_u i =
  if i == 0%N then 1 / 3 else if i == 1%N then 1 / 2 else 1 / 6.
Proof.
by case: i => [|[|i]] /=; rewrite -invfM -expr2 sqr_sqrtr ?div1r // ler0n.
Qed.

Lemma svd_three_kernel : svd_kernel_spec (A 3) (svd_three (A 3)).
Proof.
have h0 := svd_three_u_sq 0; have h1 := svd_three_u_sq 1; have h2 := svd_three_u_sq 2.
rewrite /= in h0 h1 h2.
split; first by rewrite size_nseq.
  apply/matrixP => i j; rewrite !mxE !big_ord_recl big_ord0 !mxE /= /bump /=.
  case: i => [[|[|[|i]]] Hi] //=; case: j => [[|[|[|j]]] Hj] //=; nra.
move=> j; rewrite size_nseq /= => Hj.
apply/matrixP => i k; rewrite (ord1 k) constraint_matrix_mul !big_ord_recl big_ord0 !mxE.
case: j Hj => [[|[|[|j]]] Hj] //= _.
by case: i => [[|[|i]] Hi] //=; rewrite /bump /=; lra.
Qed.

Lemma lstsq_three_solves (mean : algR) : A 3 *m lstsq_three (A 3) (b mean) = b mean.
Proof.
apply/matrixP => i k; rewrite (ord1 k) constraint_matrix_mul constraint_rhsE.
rewrite !big_ord_recl !big_ord0 /lstsq_three !constraint_matrix_tr_mul !mxE.
rewrite !big_ord_recl !big_ord0 !constraint_rhsE /= /bump /= !add1n.
by case: i => [[|[|i]] Hi] //=; lra.
Qed.

Lemma lstsq_three_min_norm (mean : algR) :
  min_norm_least_squares (A 3) (b mean) (lstsq_three (A 3) (b mean)).
Proof.
split; first by rewrite /least_squares lstsq_three_solves subrr mulmx0.
by eexists.
Qed.

Lemma lstsq_three_entries (mean : algR) (j : 'I_3) :
  lstsq_three (A 3) (b mean) j 0 = 7 / 3 - mean + (j.+1)%:R * (mean / 2 - 1).
Proof.
rewrite /lstsq_three constraint_matrix_tr_mul !mxE !big_ord_recl !big_ord0.
by rewrite !constraint_rhsE /=; lra.
Qed.

(** The projector of the three-face instance is [(1, -2, 1) (1, -2, 1)^T / 6]. *)
Lemma projector_P_three :
  projector_P svd_three 3 = \matrix_(i < 3, j < 3) (svd_three_w 2 i * svd_three_w 2 j / 6).
Proof.
have h2 := svd_three_u_sq 2; rewrite /= in h2.
apply/matrixP => i j; rewrite /projector_P /= /kernel_projector !mxE big_ord1 !mxE /=.
by case: i => [[|[|[|i]]] Hi] //=; case: j => [[|[|[|j]]] Hj] //=; nra.
Qed.

End InstancesThree.

Section Claims.

Variable R : realFieldType.
Variable svd : forall m n, 'M[R]_(m, n) -> 'M[R]_m * seq R * 'M[R]_n.
Variable lstsq : forall m n, 'M[R]_(m, n) -> 'cV[R]_m -> 'cV[R]_n.
Variable log : R -> R.

Local Abbreviation A := (@constraint_matrix R).
Local Abbreviation b := (@constraint_rhs R).

Lemma compute_constraint_projectorE n (mean : R) :
  compute_constraint_projector svd lstsq n mean =
  affine_projector (projector_P svd n) (projector_v lstsq n mean).
Proof. by rewrite /compute_constraint_projector /projector_P; case: (svd _) => [[U Sv] VT]. Qed.

Lemma projector_P_spec n :
  svd_kernel_spec (A n) (svd (A n)) ->
  [/\ (projector_P svd n)^T = projector_P svd n,
      projector_P svd n *m projector_P svd n = projector_P svd n
    & A n *m projector_P svd n = 0].
Proof.
rewrite /projector_P; case: (svd _) => [[U Sv] VT] [_ HV HK].
split; [exact: kernel_projector_sym | exact: kernel_projector_idem
       | exact: kernel_projector_in_kernel].
Qed.

(** The training loop writes [p] and nothing else. *)
Lemma train_frame n (lr : R) iters (st : dice_state R n) :
  [/\ mean_constraint (train log lr iters st) = mean_constraint st,
      proj_P (train log lr iters st) = proj_P st
    & proj_v (train log lr iters st) = proj_v st].
Proof. by elim: iters => [|k [IHm IHP IHv]] //=; rewrite /train /= in IHm IHP IHv *. Qed.

Lemma trainS n (lr : R) iters (st : dice_state R n) :
  train log lr iters.+1 st = train_iteration log lr (train log lr iters st).
Proof. by []. Qed.

Lemma train_iteration_p n (lr : R) (st : dice_state R n) :
  p (train_iteration log lr st) =
  affine_projector (proj_P st) (proj_v st) (sgd_step lr (p st) (loss_backward log (p st))).
Proof. by []. Qed.

(** C1: every output of the projector satisfies both linear constraints. *)
Theorem project_satisfies_constraints n (mean : R) :
  svd_kernel_spec (A n) (svd (A n)) ->
  least_squares (A n) (b mean) (lstsq (A n) (b mean)) ->
  (exists x0 : 'cV[R]_n, A n *m x0 = b mean) ->
  forall x : 'cV[R]_n, A n *m compute_constraint_projector svd lstsq n mean x = b mean.
Proof.
move=> Hsvd Hls [x0 Hx0] x.
case: (projector_P_spec Hsvd) => _ _ HAP.
rewrite compute_constraint_projectorE affine_projector_constraint //.
exact: least_squares_solves Hls Hx0.
Qed.

(** C3: the projector is idempotent. *)
Theorem project_idempotent n (mean : R) :
  svd_kernel_spec (A n) (svd (A n)) ->
  forall x : 'cV[R]_n,
    compute_constraint_projector svd lstsq n mean
      (compute_constraint_projector svd lstsq n mean x) =
    compute_constraint_projector svd lstsq n mean x.
Proof.
move=> Hsvd x; case: (projector_P_spec Hsvd) => _ HPP _.
by rewrite compute_constraint_projectorE affine_projector_idem.
Qed.

(** C4: [P = K K^T] is symmetric, idempotent and annihilated by [A]; it is
    computed once by [__init__] and no later step of the training loop
    changes it. *)
Theorem kernel_projector_invariants n (mean lr : R) :
  svd_kernel_spec (A n) (svd (A n)) ->
  let P := projector_P svd n in
  [/\ P^T = P, P *m P = P, A n *m P = 0
    & forall iters, proj_P (run svd lstsq log n mean lr iters) = P].
Proof.
move=> Hsvd P; case: (projector_P_spec Hsvd) => HT HPP HAP.
split=> // iters.
by case: (train_frame lr iters (init svd lstsq n mean)).
Qed.

(** C10: [enforce_constraint] writes only [p] (a vector of the same
    length [num_faces], fixed by the type), and [forward] leaves the whole
    state unchanged. *)
Theorem enforce_constraint_frame n (st : dice_state R n) :
  [/\ mean_constraint (enforce_constraint st) = mean_constraint st,
      proj_P (enforce_constraint st) = proj_P st,
      proj_v (enforce_constraint st) = proj_v st,
      p (enforce_constraint st) = affine_projector (proj_P st) (proj_v st) (p st)
    & forward log st = (entropy log (p st), st)].
Proof. by []. Qed.

(** C5: one [optimizer.step()] after [loss.backward()] on
    [loss = -entropy] is the closed-form update
    [p_i <- p_i - lr * (log p_i + 1)] whenever every [p_i] is positive. *)
Theorem optimizer_step_closed_form n (lr : R) (st : dice_state R n) :
  (forall i : 'I_n, 0 < p st i 0) ->
  p (optimizer_step log lr st) = \col_i (p st i 0 - lr * (log (p st i 0) + 1)).
Proof.
move=> Hpos; apply/matrixP => i j; rewrite (ord1 j) /= /sgd_step /loss_backward !mxE.
have Hx : p st i 0 != 0 by rewrite lt0r_neq0.
by rewrite opprK mul1r mul1r mulfV.
Qed.

(** C7: for six faces and mean [4.5] the minimum-norm least-squares
    solution [v] agrees with the notebook's printed
    [(0.0238, 0.0810, 0.1381, 0.1952, 0.2524, 0.3095)] to four decimal
    places (each entry within [5 / 10^5]), and the projector fixes [v]. *)
Theorem particular_solution_six :
  min_norm_least_squares (A 6) (b (9 / 2)) (projector_v lstsq 6 (9 / 2)) ->
  (forall j : 'I_6, `|projector_v lstsq 6 (9 / 2) j 0 - printed_v R j 0| < 5 / 10 ^+ 5)
  /\ compute_constraint_projector svd lstsq 6 (9 / 2) (projector_v lstsq 6 (9 / 2))
     = projector_v lstsq 6 (9 / 2).
Proof.
set v := projector_v lstsq 6 (9 / 2); move=> [Hls [y Hy]].
split; last first.
  by rewrite compute_constraint_projectorE /affine_projector subrr mulmx0 addr0.
have [x0 Hx0] := @constraint_system_consistent R 6 (9 / 2) isT.
have Hv := least_squares_solves Hls Hx0.
have h0 := congr1 (fun c : 'cV_2 => c 0 0) Hv.
have h1 := congr1 (fun c : 'cV_2 => c 1 0) Hv.
rewrite /= Hy !constraint_matrix_mul !big_ord_recl !big_ord0 !constraint_matrix_tr_mul in h0 h1.
rewrite !constraint_rhsE /= /bump /= !add1n in h0 h1.
move=> j; rewrite Hy constraint_matrix_tr_mul /printed_v mxE ltr_distl.
by case: j => [[|[|[|[|[|[|j]]]]]] Hj] //=; apply/andP; split; lra.
Qed.


(** C8: with two faces the kernel of [A] is trivial, [P] is the zero
    matrix, the projector is the constant function [v], and every iteration
    of the training loop leaves [p = v]. *)
Theorem two_faces_projector_constant (mean lr : R) :
  svd_kernel_spec (A 2) (svd (A 2)) ->
  [/\ forall x : 'cV[R]_2, A 2 *m x = 0 -> x = 0,
      projector_P svd 2 = 0,
      forall x : 'cV[R]_2,
        compute_constraint_projector svd lstsq 2 mean x = projector_v lstsq 2 mean
    & forall iters, p (run svd lstsq log 2 mean lr iters.+1) = projector_v lstsq 2 mean].
Proof.
move=> Hsvd.
have HP0 : projector_P svd 2 = 0.
  move: Hsvd; rewrite /projector_P; case: (svd _) => [[U Sv] VT] [Hsz _ _].
  have H0 : (2 - size Sv = 0)%N by rewrite Hsz.
  apply/matrixP => i j; rewrite !mxE big1 // => k _.
  by have := leq_trans (ltn_ord k) (eq_leq H0).
split=> //.
- move=> x Hx.
  have h0 := congr1 (fun c : 'cV_2 => c 0 0) Hx.
  have h1 := congr1 (fun c : 'cV_2 => c 1 0) Hx.
  rewrite /= !constraint_matrix_mul !big_ord_recl !big_ord0 !mxE /= /bump /= ?addn0 in h0 h1.
  apply/matrixP => i k; rewrite (ord1 k) [RHS]mxE.
  case: i => [[|[|i]] Hi] //=.
  + have -> : Ordinal Hi = ord0 by apply: val_inj.
    lra.
  + have -> : Ordinal Hi = lift ord0 ord0 by apply: val_inj.
    lra.
- by move=> x; rewrite compute_constraint_projectorE /affine_projector HP0 mul0mx addr0.
- move=> iters; rewrite /run trainS train_iteration_p.
  have [_ -> ->] := train_frame lr iters (init svd lstsq 2 mean).
  by rewrite /= /affine_projector HP0 mul0mx addr0.
Qed.

End Claims.

Section Determinism.

Variable R : realFieldType.
Variable log : R -> R.

Local Abbreviation A := (@constraint_matrix R).
Local Abbreviation b := (@constraint_rhs R).

Lemma train_p_congr n (lr : R) (st1 st2 : dice_state R n) :
  (forall x, constraint_projector st1 x = constraint_projector st2 x) ->
  p st1 = p st2 ->
  forall iters, p (train log lr iters st1) = p (train log lr iters st2).
Proof.
move=> Hproj Hp; elim=> [|k IH] //.
rewrite !trainS !train_iteration_p.
have [_ -> ->] := train_frame log lr k st1.
have [_ -> ->] := train_frame log lr k st2.
by rewrite IH; apply: Hproj.
Qed.

(** C9: the construction and the training loop are deterministic: two
    executions with the same [num_faces], [mean_constraint], learning rate
    and iteration count end with the same probability vector and the same
    entropy, even when they use two SVD and two least-squares routines, as
    long as each satisfies its contract. *)
Theorem run_deterministic
    (svd1 svd2 : forall m n, 'M[R]_(m, n) -> 'M[R]_m * seq R * 'M[R]_n)
    (lstsq1 lstsq2 : forall m n, 'M[R]_(m, n) -> 'cV[R]_m -> 'cV[R]_n)
    n (mean lr : R) iters :
  svd_kernel_spec (A n) (svd1 _ _ (A n)) -> svd_rowspace_spec (A n) (svd1 _ _ (A n)) ->
  svd_kernel_spec (A n) (svd2 _ _ (A n)) -> svd_rowspace_spec (A n) (svd2 _ _ (A n)) ->
  least_squares (A n) (b mean) (lstsq1 _ _ (A n) (b mean)) ->
  least_squares (A n) (b mean) (lstsq2 _ _ (A n) (b mean)) ->
  p (run svd1 lstsq1 log n mean lr iters) = p (run svd2 lstsq2 log n mean lr iters) /\
  (forward log (run svd1 lstsq1 log n mean lr iters)).1 =
  (forward log (run svd2 lstsq2 log n mean lr iters)).1.
Proof.
move=> K1 R1 K2 R2 L1 L2.
have HP : projector_P svd1 n = projector_P svd2 n.
  move: K1 R1 K2 R2; rewrite /projector_P.
  case: (svd1 _ _ _) => [[U1 Sv1] VT1]; case: (svd2 _ _ _) => [[U2 Sv2] VT2].
  exact: kernel_projector_unique.
have Hfix : projector_P svd1 n *m (projector_v lstsq1 n mean - projector_v lstsq2 n mean)
            = projector_v lstsq1 n mean - projector_v lstsq2 n mean.
  move: K1 R1; rewrite /projector_P; case: (svd1 _ _ _) => [[U1 Sv1] VT1] K1 R1.
  exact: (kernel_projector_fixes K1 R1 (least_squares_diff L1 L2)).
have Hp : p (run svd1 lstsq1 log n mean lr iters) = p (run svd2 lstsq2 log n mean lr iters).
  apply: train_p_congr => // x /=.
  by rewrite /constraint_projector /= (affine_projector_unique x Hfix) HP.
by rewrite /forward /= Hp.
Qed.

End Determinism.

(** * Further properties of the projector and of the training loop *)

Section Extras.

Variable R : realFieldType.
Variable svd : forall m n, 'M[R]_(m, n) -> 'M[R]_m * seq R * 'M[R]_n.
Variable lstsq : forall m n, 'M[R]_(m, n) -> 'cV[R]_m -> 'cV[R]_n.
Variable log : R -> R.

Local Abbreviation A := (@constraint_matrix R).
Local Abbreviation b := (@constraint_rhs R).

Lemma loss_backward_closed n (q : 'cV[R]_n) :
  (forall i, q i 0 != 0) -> loss_backward log q = \col_i (log (q i 0) + 1).
Proof.
move=> Hq; apply/matrixP => i j; rewrite (ord1 j) /loss_backward !mxE.
by rewrite opprK mul1r mul1r mulfV.
Qed.

Lemma run_succ_p n (mean lr : R) iters :
  p (run svd lstsq log n mean lr iters.+1) =
  affine_projector (projector_P svd n) (projector_v lstsq n mean)
    (sgd_step lr (p (run svd lstsq log n mean lr iters))
       (loss_backward log (p (run svd lstsq log n mean lr iters)))).
Proof.
rewrite /run trainS train_iteration_p.
by have [_ -> ->] := train_frame log lr iters (init svd lstsq n mean).
Qed.

Lemma projector_P_fixes n k (X : 'M[R]_(n, k)) :
  svd_kernel_spec (A n) (svd (A n)) -> A n *m X = 0 -> projector_P svd n *m X = X.
Proof.
rewrite /projector_P; case: (svd _) => [[U Sv] VT] Hk HX.
apply: (kernel_projector_fixes_rank Hk) HX.
by case: Hk => Hsz _ _; rewrite constraint_matrix_rank Hsz.
Qed.

Lemma projector_P_in_kernel n :
  svd_kernel_spec (A n) (svd (A n)) -> A n *m projector_P svd n = 0.
Proof. by move=> Hk; case: (projector_P_spec Hk). Qed.

Lemma projector_P_rowspace n (y : 'cV[R]_2) :
  svd_kernel_spec (A n) (svd (A n)) -> projector_P svd n *m ((A n)^T *m y) = 0.
Proof.
rewrite /projector_P; case: (svd _) => [[U Sv] VT] [_ _ HK].
exact: kernel_projector_rowspace.
Qed.

Lemma run_constraint n (mean lr : R) iters :
  svd_kernel_spec (A n) (svd (A n)) ->
  least_squares (A n) (b mean) (lstsq (A n) (b mean)) -> (2 <= n)%N ->
  A n *m p (run svd lstsq log n mean lr iters.+1) = b mean.
Proof.
move=> Hk Hls Hn.
have [x0 Hx0] := constraint_system_consistent mean Hn.
rewrite run_succ_p affine_projector_constraint; first exact: projector_P_in_kernel.
exact: least_squares_solves Hls Hx0.
Qed.

(** The first gradient step starts from [torch.ones]: the gradient is the
    same at every entry, so the step lands on a constant vector, which lies
    in the row space of [A] and is sent to zero by [P]. *)
Lemma run_one_p n (mean lr : R) :
  svd_kernel_spec (A n) (svd (A n)) ->
  p (run svd lstsq log n mean lr 1) =
  projector_v lstsq n mean - projector_P svd n *m projector_v lstsq n mean.
Proof.
move=> Hk; rewrite run_succ_p /affine_projector.
set c : R := 1 - lr * (log 1 + 1).
have Hc : sgd_step lr (p (run svd lstsq log n mean lr 0))
            (loss_backward log (p (run svd lstsq log n mean lr 0)))
          = (A n)^T *m \col_(i < 2) (if i == 0%N :> nat then c else 0).
  apply/matrixP => i j; rewrite (ord1 j) constraint_matrix_tr_mul !mxE /=.
  by rewrite /c opprK !mul1r invr1 mulr0 addr0.
by rewrite Hc mulmxBr projector_P_rowspace // sub0r.
Qed.

(** A vector meeting both constraints with no negative entry has its mean
    between [1] and [num_faces]. *)
Lemma feasible_mean_range n (q : 'cV[R]_n) (mean : R) :
  (forall i, 0 <= q i 0) -> \sum_(i < n) q i 0 = 1 ->
  \sum_(i < n) (i.+1)%:R * q i 0 = mean -> 1 <= mean <= n%:R.
Proof.
move=> Hq H1 Hm; rewrite -Hm; apply/andP; split.
  rewrite -[X in X <= _]H1; apply: ler_sum => i _.
  have Hi : 1 <= (i.+1)%:R :> R by rewrite ler1n.
  by have := Hq i; nra.
rewrite -[X in _ <= X]mulr1 -[X in _ <= _ * X]H1 mulr_sumr; apply: ler_sum => i _.
by apply: ler_wpM2r => //; rewrite ler_nat.
Qed.

(** X1: the kernel basis [K = V[:, len(S):]] has orthonormal columns, lies
    in the kernel of [A] and spans it: [K K^T d = d] for every [d] with
    [A d = 0].  Only the kernel part of the SVD contract is assumed. *)
Theorem kernel_basis_spans_kernel n (U : 'M[R]_2) (Sv : seq R) (VT : 'M[R]_n) :
  svd_kernel_spec (A n) (U, Sv, VT) ->
  [/\ (kernel_basis Sv VT)^T *m kernel_basis Sv VT = 1%:M,
      A n *m kernel_basis Sv VT = 0
    & forall d : 'cV[R]_n, A n *m d = 0 ->
        kernel_basis Sv VT *m ((kernel_basis Sv VT)^T *m d) = d].
Proof.
move=> Hk; have [Hsz HV HK] := Hk; split.
- exact: kernel_basis_orthonormal.
- exact: kernel_basis_in_kernel.
- move=> d Hd; rewrite mulmxA; apply: (kernel_projector_fixes_rank Hk) Hd.
  by rewrite constraint_matrix_rank Hsz.
Qed.

(** X2: [P] fixes exactly the kernel of [A]. *)
Theorem projector_fixes_exactly_kernel n :
  svd_kernel_spec (A n) (svd (A n)) ->
  forall x : 'cV[R]_n, projector_P svd n *m x = x <-> A n *m x = 0.
Proof.
move=> Hk x; split; last exact: projector_P_fixes.
by move=> <-; rewrite mulmxA projector_P_in_kernel // mul0mx.
Qed.

(** X3: the fixed points of the projector are exactly the vectors
    satisfying both constraints. *)
Theorem project_fixed_iff_feasible n (mean : R) :
  svd_kernel_spec (A n) (svd (A n)) ->
  least_squares (A n) (b mean) (lstsq (A n) (b mean)) ->
  (exists x0 : 'cV[R]_n, A n *m x0 = b mean) ->
  forall x : 'cV[R]_n,
    compute_constraint_projector svd lstsq n mean x = x <-> A n *m x = b mean.
Proof.
move=> Hk Hls [x0 Hx0] x.
have Hv := least_squares_solves Hls Hx0.
rewrite compute_constraint_projectorE; split.
  move=> <-; rewrite affine_projector_constraint //; exact: projector_P_in_kernel.
move=> Hx; rewrite /affine_projector projector_P_fixes //.
  by rewrite mulmxBr Hx Hv subrr.
by rewrite addrCA subrr addr0.
Qed.


(** X5: any solution of [A x = b] can replace [lstsq]'s: the projector does
    not depend on which particular solution is used. *)
Theorem project_any_particular_solution n (mean : R) (v' : 'cV[R]_n) :
  svd_kernel_spec (A n) (svd (A n)) ->
  least_squares (A n) (b mean) (lstsq (A n) (b mean)) ->
  A n *m v' = b mean ->
  forall x : 'cV[R]_n,
    compute_constraint_projector svd lstsq n mean x =
    affine_projector (projector_P svd n) v' x.
Proof.
move=> Hk Hls Hv' x.
have Hv := least_squares_solves Hls Hv'.
rewrite compute_constraint_projectorE; apply: affine_projector_unique.
by apply: projector_P_fixes => //; rewrite mulmxBr Hv Hv' subrr.
Qed.

(** X6: as long as [torch.log] has only seen positive entries, the result
    of each iteration of the loop sums to [1] and has mean
    [mean_constraint]. *)
Theorem run_satisfies_constraints n (mean lr : R) iters :
  svd_kernel_spec (A n) (svd (A n)) ->
  least_squares (A n) (b mean) (lstsq (A n) (b mean)) -> (2 <= n)%N ->
  log_inputs_positive svd lstsq log n mean lr iters ->
  \sum_(i < n) p (run svd lstsq log n mean lr iters.+1) i 0 = 1 /\
  \sum_(i < n) (i.+1)%:R * p (run svd lstsq log n mean lr iters.+1) i 0 = mean.
Proof.
move=> Hk Hls Hn _; have HA := run_constraint lr iters Hk Hls Hn.
set q := p (run svd lstsq log n mean lr iters.+1) in HA *.
have h0 := congr1 (fun c : 'cV_2 => c 0 0) HA.
have h1 := congr1 (fun c : 'cV_2 => c 1 0) HA.
rewrite /= !constraint_matrix_mul !constraint_rhsE /= in h0 h1.
split; last by rewrite -h1.
by rewrite -h0; apply: eq_bigr => i _; rewrite mul1r.
Qed.

(** X7: while [torch.log] sees only positive entries, each iteration from
    the second on moves [p] along the gradient [log p + 1] projected onto
    the kernel of [A]: [p <- p - lr P (log p + 1)]. *)
Theorem run_projected_gradient_step n (mean lr : R) iters :
  svd_kernel_spec (A n) (svd (A n)) ->
  log_inputs_positive svd lstsq log n mean lr iters.+1 ->
  p (run svd lstsq log n mean lr iters.+2) =
  p (run svd lstsq log n mean lr iters.+1)
  - lr *: (projector_P svd n *m
             \col_i (log (p (run svd lstsq log n mean lr iters.+1) i 0) + 1)).
Proof.
move=> Hk Hpos.
have Hnz : forall i, p (run svd lstsq log n mean lr iters.+1) i 0 != 0.
  by move=> i; rewrite lt0r_neq0 // Hpos.
have HPP : projector_P svd n *m projector_P svd n = projector_P svd n.
  by case: (projector_P_spec Hk).
rewrite [LHS]run_succ_p loss_backward_closed // /sgd_step.
have Hq := run_succ_p n mean lr iters.
set q := p (run svd lstsq log n mean lr iters.+1) in Hnz Hq *.
set P := projector_P svd n; set v := projector_v lstsq n mean.
set g := \col_i (log (q i 0) + 1).
have Hfix : affine_projector P v q = q by rewrite [in LHS]Hq affine_projector_idem -?Hq.
rewrite /affine_projector in Hfix *.
have -> : q - lr *: g - v = (q - v) - lr *: g.
  by apply/matrixP => i j; rewrite !mxE; ring.
by rewrite mulmxBr -scalemxAr addrA Hfix.
Qed.

(** X8: with a mean outside [[1, num_faces]] the first iteration already
    leaves a negative entry in [p], which the second iteration passes to
    [torch.log]. *)
Theorem run_negative_entry_out_of_range n (mean lr : R) :
  svd_kernel_spec (A n) (svd (A n)) ->
  least_squares (A n) (b mean) (lstsq (A n) (b mean)) -> (2 <= n)%N ->
  mean < 1 \/ n%:R < mean ->
  exists i : 'I_n, p (run svd lstsq log n mean lr 1) i 0 < 0.
Proof.
move=> Hk Hls Hn Hout.
have HA := run_constraint lr 0 Hk Hls Hn.
set q := p (run svd lstsq log n mean lr 1) in HA *.
case: (boolP [exists i, q i 0 < 0]) => [/existsP // | Hall].
have Hq : forall i, 0 <= q i 0.
  by move=> i; move: Hall; rewrite negb_exists => /forallP /(_ i); rewrite -Order.TotalTheory.leNgt.
have h0 := congr1 (fun c : 'cV_2 => c 0 0) HA.
have h1 := congr1 (fun c : 'cV_2 => c 1 0) HA.
rewrite /= !constraint_matrix_mul !constraint_rhsE /= in h0 h1.
have H1 : \sum_(i < n) q i 0 = 1 by rewrite -h0; apply: eq_bigr => i _; rewrite mul1r.
have /andP [Hlo Hhi] := feasible_mean_range Hq H1 h1.
by clear HA Hq Hall h0 h1 H1; case: Hout => Hout; lra.
Qed.


(** X10: the first iteration moves [p] to [v] whatever the learning rate
    and [log]: its input [torch.ones] gives a constant gradient, so the
    gradient step stays in the row space of [A], and the minimum-norm
    least-squares solution [v] lies in the row space as well. *)
Theorem run_first_iteration_min_norm n (mean lr : R) :
  svd_kernel_spec (A n) (svd (A n)) ->
  min_norm_least_squares (A n) (b mean) (lstsq (A n) (b mean)) ->
  p (run svd lstsq log n mean lr 1) = projector_v lstsq n mean.
Proof.
move=> Hk [_ [y Hy]].
by rewrite run_one_p // /projector_v Hy projector_P_rowspace // subr0.
Qed.

End Extras.

(** * Witnesses: the hypotheses of the theorems hold at concrete inputs

    Three faces over [algR] with mean [5/2], the instances [svd_three] and
    [lstsq_three], and [log_lower]: there the kernel of [A] is a line and
    [P] is not zero.  Two faces with mean [3/2] and the instances [svd_two]
    and [lstsq_two]; six faces with mean [9/2] and [lstsq_six]; one face with
    mean [1]. *)

Section Witnesses.

Local Abbreviation A := (@constraint_matrix rat).
Local Abbreviation b := (@constraint_rhs rat).
Local Abbreviation A3 := (@constraint_matrix algR 3).
Local Abbreviation b3 := (@constraint_rhs algR).

(** With three faces and mean [5/2] the first iteration sets [p] to
    [v = (1/12, 1/3, 7/12)]. *)
Lemma run_three_one (lr : algR) (j : 'I_3) :
  p (run svd_three lstsq_three log_lower 3 (5 / 2) lr 1) j 0 =
  7 / 3 - 5 / 2 + (j.+1)%:R * (5 / 2 / 2 - 1).
Proof.
have Hk := svd_three_kernel.
rewrite run_one_p // /projector_v [X in _ - _ *m X]/lstsq_three projector_P_rowspace //.
by rewrite subr0 lstsq_three_entries.
Qed.

Lemma run_three_positive : log_inputs_positive svd_three lstsq_three log_lower 3 (5 / 2) (1 / 1000) 1.
Proof.
move=> [|[|k]] // _ i; first by rewrite /= mxE ltr01.
by rewrite run_three_one; case: i => [[|[|[|i]]] Hi] //=; lra.
Qed.

Lemma project_satisfies_constraints_witness :
  [/\ svd_kernel_spec A3 (svd_three A3),
      least_squares A3 (b3 (5 / 2)) (lstsq_three A3 (b3 (5 / 2))),
      (exists x0 : 'cV[algR]_3, A3 *m x0 = b3 (5 / 2)),
      projector_P svd_three 3 0 0 = 1 / 6
    & forall x : 'cV[algR]_3,
        A3 *m compute_constraint_projector svd_three lstsq_three 3 (5 / 2) x = b3 (5 / 2)].
Proof.
have H1 := svd_three_kernel; have [H2 _] := lstsq_three_min_norm (5 / 2).
have H3 : exists x0 : 'cV[algR]_3, A3 *m x0 = b3 (5 / 2).
  by exists (lstsq_three A3 (b3 (5 / 2))); apply: lstsq_three_solves.
have H4 : projector_P svd_three 3 0 0 = 1 / 6 by rewrite projector_P_three mxE /= mul1r.
split=> //; exact: (project_satisfies_constraints H1 H2 H3).
Defined.

Lemma project_idempotent_witness :
  [/\ svd_kernel_spec A3 (svd_three A3),
      projector_P svd_three 3 0 0 = 1 / 6
    & forall x : 'cV[algR]_3,
        compute_constraint_projector svd_three lstsq_three 3 (5 / 2)
          (compute_constraint_projector svd_three lstsq_three 3 (5 / 2) x) =
        compute_constraint_projector svd_three lstsq_three 3 (5 / 2) x].
Proof.
have H1 := svd_three_kernel.
have H2 : projector_P svd_three 3 0 0 = 1 / 6 by rewrite projector_P_three mxE /= mul1r.
split; [exact: H1 | exact: H2 |].
exact: (project_idempotent lstsq_three (5 / 2) H1).
Defined.

Lemma kernel_projector_invariants_witness :
  svd_kernel_spec A3 (svd_three A3) /\ projector_P svd_three 3 0 0 = 1 / 6 /\
  let P := projector_P svd_three 3 in
  [/\ P^T = P, P *m P = P, A3 *m P = 0
    & forall iters, proj_P (run svd_three lstsq_three log_lower 3 (5 / 2) (1 / 1000) iters) = P].
Proof.
have H1 := svd_three_kernel.
have H2 : projector_P svd_three 3 0 0 = 1 / 6 by rewrite projector_P_three mxE /= mul1r.
split; first exact: H1.
split; first exact: H2.
exact: (kernel_projector_invariants lstsq_three log_lower (5 / 2) (1 / 1000) H1).
Defined.

Lemma optimizer_step_closed_form_witness :
  let st := init svd_two lstsq_two 2 (3 / 2) in
  (forall i : 'I_2, 0 < p st i 0) /\
  p (optimizer_step log_zero (1 / 1000) st) =
  \col_i (p st i 0 - 1 / 1000 * (log_zero (p st i 0) + 1)).
Proof.
have Hpos : forall i : 'I_2, 0 < p (init svd_two lstsq_two 2 (3 / 2)) i 0.
  by move=> i; rewrite /= mxE.
split; first exact: Hpos.
exact: (optimizer_step_closed_form log_zero (1 / 1000) Hpos).
Defined.

Lemma particular_solution_six_witness :
  min_norm_least_squares (A 6) (b (9 / 2)) (projector_v lstsq_six 6 (9 / 2)) /\
  (forall j : 'I_6, `|projector_v lstsq_six 6 (9 / 2) j 0 - printed_v rat j 0| < 5 / 10 ^+ 5)
  /\ compute_constraint_projector svd_two lstsq_six 6 (9 / 2) (projector_v lstsq_six 6 (9 / 2))
     = projector_v lstsq_six 6 (9 / 2).
Proof.
split; first exact: lstsq_six_min_norm.
exact: (particular_solution_six svd_two lstsq_six_min_norm).
Defined.



Lemma two_faces_projector_constant_witness :
  svd_kernel_spec (A 2) (svd_two (A 2)) /\
  [/\ forall x : 'cV[rat]_2, A 2 *m x = 0 -> x = 0,
      projector_P svd_two 2 = 0,
      forall x : 'cV[rat]_2,
        compute_constraint_projector svd_two lstsq_two 2 (3 / 2) x
        = projector_v lstsq_two 2 (3 / 2)
    & forall iters, p (run svd_two lstsq_two log_zero 2 (3 / 2) (1 / 1000) iters.+1)
                    = projector_v lstsq_two 2 (3 / 2)].
Proof.
split; first exact: svd_two_kernel.
exact: (two_faces_projector_constant lstsq_two log_zero (3 / 2) (1 / 1000) svd_two_kernel).
Defined.

Lemma run_deterministic_witness :
  [/\ svd_kernel_spec (A 2) (svd_two (A 2)) /\ svd_rowspace_spec (A 2) (svd_two (A 2)),
      svd_kernel_spec (A 2) (svd_two_neg (A 2)) /\ svd_rowspace_spec (A 2) (svd_two_neg (A 2)),
      least_squares (A 2) (b (3 / 2)) (lstsq_two (A 2) (b (3 / 2)))
    & p (run svd_two lstsq_two log_zero 2 (3 / 2) (1 / 1000) 5)
      = p (run svd_two_neg lstsq_two log_zero 2 (3 / 2) (1 / 1000) 5)
      /\ (forward log_zero (run svd_two lstsq_two log_zero 2 (3 / 2) (1 / 1000) 5)).1
         = (forward log_zero (run svd_two_neg lstsq_two log_zero 2 (3 / 2) (1 / 1000) 5)).1].
Proof.
have K1 := svd_two_kernel; have R1 := svd_two_rowspace.
have K2 := svd_two_neg_kernel; have R2 := svd_two_neg_rowspace.
have L := lstsq_two_least_squares (3 / 2).
split; [exact: conj K1 R1 | exact: conj K2 R2 | exact: L |].
exact: (@run_deterministic rat log_zero svd_two svd_two_neg lstsq_two lstsq_two 2 (3 / 2) (1 / 1000) 5
          K1 R1 K2 R2 L L).
Defined.

Local Abbreviation K3 := (kernel_basis (nseq (minn 2 3) (1 : algR)) (svd_three_VT 3)).

Lemma kernel_basis_spans_kernel_witness :
  svd_kernel_spec A3 (1%:M, nseq (minn 2 3) 1, svd_three_VT 3) /\
  [/\ K3^T *m K3 = 1%:M, A3 *m K3 = 0
    & forall d : 'cV[algR]_3, A3 *m d = 0 -> K3 *m (K3^T *m d) = d].
Proof.
have H1 : svd_kernel_spec A3 (1%:M, nseq (minn 2 3) 1, svd_three_VT 3) := svd_three_kernel.
split; first exact: H1.
exact: (kernel_basis_spans_kernel H1).
Defined.

Lemma projector_fixes_exactly_kernel_witness :
  [/\ svd_kernel_spec A3 (svd_three A3),
      projector_P svd_three 3 0 0 = 1 / 6
    & forall x : 'cV[algR]_3, projector_P svd_three 3 *m x = x <-> A3 *m x = 0].
Proof.
have H1 := svd_three_kernel.
have H2 : projector_P svd_three 3 0 0 = 1 / 6 by rewrite projector_P_three mxE /= mul1r.
split; [exact: H1 | exact: H2 |].
exact: (projector_fixes_exactly_kernel H1).
Defined.

Lemma project_fixed_iff_feasible_witness :
  [/\ svd_kernel_spec A3 (svd_three A3),
      least_squares A3 (b3 (5 / 2)) (lstsq_three A3 (b3 (5 / 2))),
      (exists x0 : 'cV[algR]_3, A3 *m x0 = b3 (5 / 2)),
      projector_P svd_three 3 0 0 = 1 / 6
    & forall x : 'cV[algR]_3,
        compute_constraint_projector svd_three lstsq_three 3 (5 / 2) x = x <-> A3 *m x = b3 (5 / 2)].
Proof.
have H1 := svd_three_kernel; have [H2 _] := lstsq_three_min_norm (5 / 2).
have H3 : exists x0 : 'cV[algR]_3, A3 *m x0 = b3 (5 / 2).
  by exists (lstsq_three A3 (b3 (5 / 2))); apply: lstsq_three_solves.
have H4 : projector_P svd_three 3 0 0 = 1 / 6 by rewrite projector_P_three mxE /= mul1r.
split; [exact: H1 | exact: H2 | exact: H3 | exact: H4 |].
exact: (project_fixed_iff_feasible H1 H2 H3).
Defined.


(** The particular solution [(0, 1/2, 1/2)] differs from [lstsq]'s
    [(1/12, 1/3, 7/12)]. *)
Lemma project_any_particular_solution_witness :
  [/\ svd_kernel_spec A3 (svd_three A3),
      least_squares A3 (b3 (5 / 2)) (lstsq_three A3 (b3 (5 / 2))),
      A3 *m \col_(j < 3) (if j == 0%N :> nat then 0 else 1 / 2) = b3 (5 / 2),
      \col_(j < 3) (if j == 0%N :> nat then 0 else 1 / 2) <> lstsq_three A3 (b3 (5 / 2))
    & forall x : 'cV[algR]_3,
        compute_constraint_projector svd_three lstsq_three 3 (5 / 2) x =
        affine_projector (projector_P svd_three 3)
          (\col_(j < 3) (if j == 0%N :> nat then 0 else 1 / 2)) x].
Proof.
have H1 := svd_three_kernel; have [H2 _] := lstsq_three_min_norm (5 / 2).
have H3 : A3 *m \col_(j < 3) (if j == 0%N :> nat then 0 else 1 / 2) = b3 (5 / 2).
  apply/matrixP => i k; rewrite (ord1 k) constraint_matrix_mul constraint_rhsE.
  rewrite !big_ord_recl big_ord0 !mxE /=.
  by case: i => [[|[|i]] Hi] //=; rewrite /bump /=; lra.
have H4 : \col_(j < 3) (if j == 0%N :> nat then 0 else 1 / 2) <> lstsq_three A3 (b3 (5 / 2)).
  by move=> /matrixP /(_ 0 0); rewrite lstsq_three_entries mxE /=; lra.
split; [exact: H1 | exact: H2 | exact: H3 | exact: H4 |].
exact: (project_any_particular_solution H1 H2 H3).
Defined.

Lemma run_satisfies_constraints_witness :
  [/\ svd_kernel_spec A3 (svd_three A3),
      least_squares A3 (b3 (5 / 2)) (lstsq_three A3 (b3 (5 / 2))), (2 <= 3)%N,
      log_inputs_positive svd_three lstsq_three log_lower 3 (5 / 2) (1 / 1000) 1
    & \sum_(i < 3) p (run svd_three lstsq_three log_lower 3 (5 / 2) (1 / 1000) 2) i 0 = 1 /\
      \sum_(i < 3) (i.+1)%:R * p (run svd_three lstsq_three log_lower 3 (5 / 2) (1 / 1000) 2) i 0
      = 5 / 2].
Proof.
have H1 := svd_three_kernel; have [H2 _] := lstsq_three_min_norm (5 / 2).
have H3 : (2 <= 3)%N by [].
have H4 := run_three_positive.
split; [exact: H1 | exact: H2 | exact: H3 | exact: H4 |].
exact: (run_satisfies_constraints H1 H2 H3 H4).
Defined.

(** Here the projected gradient is not zero: [v = (1/12, 1/3, 7/12)] gives
    [log_lower v + 1 = (-10, -1, 2/7)], whose first projected entry is
    [-9/7]. *)
Lemma run_projected_gradient_step_witness :
  [/\ svd_kernel_spec A3 (svd_three A3),
      log_inputs_positive svd_three lstsq_three log_lower 3 (5 / 2) (1 / 1000) 1,
      (projector_P svd_three 3 *m
         \col_i (log_lower (p (run svd_three lstsq_three log_lower 3 (5 / 2) (1 / 1000) 1) i 0) + 1))
        0 0 = - (9 / 7)
    & p (run svd_three lstsq_three log_lower 3 (5 / 2) (1 / 1000) 2) =
      p (run svd_three lstsq_three log_lower 3 (5 / 2) (1 / 1000) 1)
      - (1 / 1000) *: (projector_P svd_three 3 *m
          \col_i (log_lower (p (run svd_three lstsq_three log_lower 3 (5 / 2) (1 / 1000) 1) i 0) + 1))].
Proof.
have H1 := svd_three_kernel; have H2 := run_three_positive.
have H3 : (projector_P svd_three 3 *m
         \col_i (log_lower (p (run svd_three lstsq_three log_lower 3 (5 / 2) (1 / 1000) 1) i 0) + 1))
        0 0 = - (9 / 7).
  have hq := run_three_one (1 / 1000).
  move: (p (run svd_three lstsq_three log_lower 3 (5 / 2) (1 / 1000) 1)) hq => q hq.
  rewrite projector_P_three mxE !big_ord_recl big_ord0 !mxE !hq /log_lower /= /bump /=.
  by field.
split; [exact: H1 | exact: H2 | exact: H3 |].
exact: (run_projected_gradient_step H1 H2).
Defined.

Lemma run_negative_entry_out_of_range_witness :
  [/\ svd_kernel_spec A3 (svd_three A3),
      least_squares A3 (b3 4) (lstsq_three A3 (b3 4)), (2 <= 3)%N,
      (4 : algR) < 1 \/ 3%:R < 4 :> algR
    & exists i : 'I_3, p (run svd_three lstsq_three log_lower 3 4 (1 / 1000) 1) i 0 < 0].
Proof.
have H1 := svd_three_kernel; have [H2 _] := lstsq_three_min_norm 4.
have H3 : (2 <= 3)%N by [].
have H4 : (4 : algR) < 1 \/ 3%:R < 4 :> algR by right; lra.
split; [exact: H1 | exact: H2 | exact: H3 | exact: H4 |].
exact: (run_negative_entry_out_of_range log_lower (1 / 1000) H1 H2 H3 H4).
Defined.


Lemma run_first_iteration_min_norm_witness :
  [/\ svd_kernel_spec A3 (svd_three A3),
      min_norm_least_squares A3 (b3 (5 / 2)) (lstsq_three A3 (b3 (5 / 2)))
    & p (run svd_three lstsq_three log_lower 3 (5 / 2) (1 / 1000) 1)
      = projector_v lstsq_three 3 (5 / 2)].
Proof.
have H1 := svd_three_kernel; have H2 := lstsq_three_min_norm (5 / 2).
split; [exact: H1 | exact: H2 |].
exact: (run_first_iteration_min_norm log_lower (1 / 1000) H1 H2).
Defined.

End Witnesses.
